(** * Bouncing ball: the per-frame update of [ball_animation.py]

    The program keeps the ball in module-level variables, moves it by its
    velocity once per frame, reverses a velocity component when the ball
    pokes through a wall, and redraws it on a canvas owned by [simplekit].

    The development has a typed layer and three transcriptions of
    [update] that each keep something the typed layer abstracts away.

    - The typed layer: the module's variables as a record of integers, the
      canvas as the list of calls it has received, and [update] as a
      sequence of statements over that world.
    - [Module Dyn]: the module's variables as Python keeps them, a
      dictionary from names to values, with name lookups and operators
      that can raise.
    - [Module Traced]: the typed statements with a trace of every write,
      test and canvas call, in order.
    - [Module Py]: the dictionary layer with Python's floats beside its
      integers and a canvas that may raise.

    Each transcription is related to the typed layer by a lemma that says
    it computes the same variables and the same canvas calls. *)

From Stdlib Require Import ZArith Lia List.
From Stdlib Require Import SpecFloat.
From stdpp Require Import base gmap strings.
Import ListNotations.

Local Open Scope Z_scope.

(** ** The canvas collaborator

    [simplekit] is outside the repository; of a canvas we keep the calls it
    receives, oldest first. *)

Inductive canvas_call : Type :=
| Clear                                          (* canvas.clear() *)
| Circle (x y radius : Z) (fill : string)        (* canvas.circle(x, y, radius, fill=...) *)
| Flush.                                         (* canvas.update() *)

(** ** The module's variables (lines 4-14) *)

Record globals : Type := Globals {
  WIDTH : Z;
  HEIGHT : Z;
  ball_x : Z;
  ball_y : Z;
  ball_radius : Z;
  dx : Z;
  dy : Z;
  ball_color : string
}.

Record world : Type := World {
  vars : globals;
  canvas : list canvas_call
}.

(** Assignments to the four names [update] declares [global]. *)

Definition set_ball_x (v : Z) (g : globals) : globals :=
  Globals (WIDTH g) (HEIGHT g) v (ball_y g) (ball_radius g) (dx g) (dy g) (ball_color g).

Definition set_ball_y (v : Z) (g : globals) : globals :=
  Globals (WIDTH g) (HEIGHT g) (ball_x g) v (ball_radius g) (dx g) (dy g) (ball_color g).

Definition set_dx (v : Z) (g : globals) : globals :=
  Globals (WIDTH g) (HEIGHT g) (ball_x g) (ball_y g) (ball_radius g) v (dy g) (ball_color g).

Definition set_dy (v : Z) (g : globals) : globals :=
  Globals (WIDTH g) (HEIGHT g) (ball_x g) (ball_y g) (ball_radius g) (dx g) v (ball_color g).

(** ** Statements

    A statement transforms the world; an expression reads the variables. *)

Definition stmt : Type := world -> world.
Definition expr (A : Type) : Type := globals -> A.

Definition seq (s1 s2 : stmt) : stmt := fun w => s2 (s1 w).

Definition assign (set : Z -> globals -> globals) (e : expr Z) : stmt :=
  fun w => World (set (e (vars w)) (vars w)) (canvas w).

Definition when (c : expr bool) (body : stmt) : stmt :=
  fun w => if c (vars w) then body w else w.

Definition call (c : expr canvas_call) : stmt :=
  fun w => World (vars w) (canvas w ++ [c (vars w)]).

Declare Scope stmt_scope.
Delimit Scope stmt_scope with stmt.
Notation "s1 ;; s2" := (seq s1 s2)
  (at level 100, s2 at level 200, right associativity) : stmt_scope.

(** ** [update] (lines 16-36) *)

(* if ball_x + ball_radius > WIDTH or ball_x - ball_radius < 0 *)
Definition hits_x : expr bool :=
  fun g => (ball_x g + ball_radius g >? WIDTH g) || (ball_x g - ball_radius g <? 0).

(* if ball_y + ball_radius > HEIGHT or ball_y - ball_radius < 0 *)
Definition hits_y : expr bool :=
  fun g => (ball_y g + ball_radius g >? HEIGHT g) || (ball_y g - ball_radius g <? 0).

(* lines 24-25 *)
Definition bounce_x : stmt := when hits_x (assign set_dx (fun g => - dx g)).

(* lines 26-27 *)
Definition bounce_y : stmt := when hits_y (assign set_dy (fun g => - dy g)).

Definition update : stmt :=
  (assign set_ball_x (fun g => ball_x g + dx g) ;;
   assign set_ball_y (fun g => ball_y g + dy g) ;;
   bounce_x ;;
   bounce_y ;;
   call (fun _ => Clear) ;;
   call (fun g => Circle (ball_x g) (ball_y g) (ball_radius g) (ball_color g)) ;;
   call (fun _ => Flush))%stmt.

(** The two halves of the body: the arithmetic of lines 20-27 and the
    canvas calls of lines 30-36. *)

Definition move_and_bounce : stmt :=
  (assign set_ball_x (fun g => ball_x g + dx g) ;;
   assign set_ball_y (fun g => ball_y g + dy g) ;;
   bounce_x ;;
   bounce_y)%stmt.

Definition redraw : stmt :=
  (call (fun _ => Clear) ;;
   call (fun g => Circle (ball_x g) (ball_y g) (ball_radius g) (ball_color g)) ;;
   call (fun _ => Flush))%stmt.

(** The animation driver calls [update] once per frame. *)

Fixpoint frames (n : nat) (w : world) : world :=
  match n with
  | O => w
  | S k => frames k (update w)
  end.

(** The world after the module body has run and before the first frame. *)

Definition initial_globals : globals :=
  let W := 800 in
  let H := 600 in
  Globals W H (W / 2) (H / 2) 20 5 5 "red".

Definition initial : world := World initial_globals [].


(** The worlds of the spec's scenarios B and C: the canvas and ball of the
    program, with the position and velocity the scenario starts from. *)
Definition placed (x y vx vy : Z) : world :=
  World (Globals 800 600 x y 20 vx vy "red") [].

(** ** The invariant of the run from [initial]

    On each axis the centre stays on the 5-pixel grid, at most 5 pixels
    past the point where the ball touches a wall, and whenever it is past
    that point the velocity already points back into the canvas. *)

Definition on_track (limit p v : Z) : Prop :=
  (exists k, p = 5 * k) /\
  15 <= p <= limit - 15 /\
  (v = 5 \/ v = -5) /\
  (p = limit - 15 -> v = -5) /\
  (p = 15 -> v = 5).

Definition invariant (g : globals) : Prop :=
  WIDTH g = 800 /\ HEIGHT g = 600 /\ ball_radius g = 20 /\
  on_track 800 (ball_x g) (dx g) /\
  on_track 600 (ball_y g) (dy g).

(** On one axis, the disc lies between the two walls: neither side is
    past its edge of the canvas. *)

Definition within (limit radius p : Z) : Prop :=
  0 <= p - radius /\ p + radius <= limit.

(** ** Vocabulary for runs from arbitrary states *)

(** The three calls one frame sends, for the variables it ends with. *)

Definition frame_calls (g : globals) : list canvas_call :=
  [Clear; Circle (ball_x g) (ball_y g) (ball_radius g) (ball_color g); Flush].

(** On one axis, the disc is past a wall: the condition of lines 24 and 26
    as a proposition. *)

Definition past_wall (limit radius p : Z) : Prop :=
  p + radius > limit \/ p - radius < 0.

(** On one axis, the disc is at most one step past a wall, and if it is
    past one, the velocity points back towards the canvas. *)

Definition safe (limit radius p v : Z) : Prop :=
  radius - Z.abs v <= p <= limit - radius + Z.abs v /\
  (p + radius > limit -> v < 0) /\
  (p - radius < 0 -> v > 0).

(** The variables alone, one frame on: the canvas does not feed back into
    them. *)

Definition step (g : globals) : globals := vars (update (World g [])).

Fixpoint steps (n : nat) (g : globals) : globals :=
  match n with
  | O => g
  | S k => steps k (step g)
  end.

(** The same scene with the axes exchanged, and reflected left to right. *)

Definition transpose (g : globals) : globals :=
  Globals (HEIGHT g) (WIDTH g) (ball_y g) (ball_x g) (ball_radius g)
          (dy g) (dx g) (ball_color g).

Definition mirror (g : globals) : globals :=
  Globals (WIDTH g) (HEIGHT g) (WIDTH g - ball_x g) (ball_y g) (ball_radius g)
          (- dx g) (dy g) (ball_color g).

(** ** The dynamic layer

    Python keeps the module's variables in a dictionary and checks types
    when an operator runs.  Here [update] is transcribed once more, over
    that dictionary, with every name lookup and operator able to raise. *)

Module Dyn.

Inductive val : Type :=
| VInt (n : Z)
| VStr (s : string)
| VCanvas.                       (* the object made by sk.Canvas(WIDTH, HEIGHT) *)

Inductive exn : Type :=
| NameError (x : string)
| TypeError
| AttributeError.

Inductive dcall : Type :=
| DClear
| DCircle (x y radius fill : val)
| DFlush.

Record dworld : Type := DWorld {
  dvars : gmap string val;
  dcanvas : list dcall
}.

Inductive outcome (A : Type) : Type :=
| Ok (a : A) (w : dworld)
| Raise (e : exn).
Arguments Ok {A} a w.
Arguments Raise {A} e.

Definition exec (A : Type) : Type := dworld -> outcome A.

Definition ret {A} (a : A) : exec A := fun w => Ok a w.

Definition bind {A B} (m : exec A) (k : A -> exec B) : exec B :=
  fun w => match m w with
           | Ok a w' => k a w'
           | Raise e => Raise e
           end.

Definition raise {A} (e : exn) : exec A := fun _ => Raise e.

Declare Scope exec_scope.
Delimit Scope exec_scope with exec.
Notation "'let*' x ':=' c1 'in' c2" := (bind c1 (fun x => c2))
  (at level 10, x name, c1 at level 100, c2 at level 200) : exec_scope.
Notation "c1 ;; c2" := (bind c1 (fun _ => c2))
  (at level 100, c2 at level 200, right associativity) : exec_scope.
Local Open Scope exec_scope.

(** Operators, on the values the module holds.  A canvas supports none
    of them. *)

Definition add (a b : val) : exec val :=
  match a, b with
  | VInt m, VInt n => ret (VInt (m + n))
  | VStr s, VStr t => ret (VStr (s ++ t))
  | _, _ => raise TypeError
  end.

Definition sub (a b : val) : exec val :=
  match a, b with
  | VInt m, VInt n => ret (VInt (m - n))
  | _, _ => raise TypeError
  end.

Definition neg (a : val) : exec val :=
  match a with
  | VInt m => ret (VInt (- m))
  | _ => raise TypeError
  end.

Definition gt (a b : val) : exec bool :=
  match a, b with
  | VInt m, VInt n => ret (m >? n)
  | VStr s, VStr t => ret (String.ltb t s)
  | _, _ => raise TypeError
  end.

Definition lt (a b : val) : exec bool :=
  match a, b with
  | VInt m, VInt n => ret (m <? n)
  | VStr s, VStr t => ret (String.ltb s t)
  | _, _ => raise TypeError
  end.

(** Expressions. *)

Definition Name (x : string) : exec val :=
  fun w => match dvars w !! x with
           | Some v => Ok v w
           | None => Raise (NameError x)
           end.

Definition Const (n : Z) : exec val := ret (VInt n).

Definition Add (e1 e2 : exec val) : exec val :=
  let* a := e1 in let* b := e2 in add a b.

Definition Sub (e1 e2 : exec val) : exec val :=
  let* a := e1 in let* b := e2 in sub a b.

Definition Neg (e : exec val) : exec val :=
  let* a := e in neg a.

Definition Gt (e1 e2 : exec val) : exec bool :=
  let* a := e1 in let* b := e2 in gt a b.

Definition Lt (e1 e2 : exec val) : exec bool :=
  let* a := e1 in let* b := e2 in lt a b.

(* [or] evaluates its right operand only when the left one is false *)
Definition Or (e1 e2 : exec bool) : exec bool :=
  let* a := e1 in if a then ret true else e2.

(** Statements. *)

Definition Assign (x : string) (e : exec val) : exec unit :=
  let* v := e in
  fun w => Ok tt (DWorld (<[x := v]> (dvars w)) (dcanvas w)).

(* x += e *)
Definition AugAdd (x : string) (e : exec val) : exec unit :=
  let* a := Name x in let* b := e in let* v := add a b in
  fun w => Ok tt (DWorld (<[x := v]> (dvars w)) (dcanvas w)).

Definition If (c : exec bool) (body : exec unit) : exec unit :=
  let* b := c in if b then body else ret tt.

(** Method calls: the attribute is looked up on the receiver before the
    arguments are evaluated; only a canvas has these three. *)

Definition attr (obj : exec val) : exec unit :=
  let* o := obj in
  match o with
  | VCanvas => ret tt
  | _ => raise AttributeError
  end.

Definition emit (c : dcall) : exec unit :=
  fun w => Ok tt (DWorld (dvars w) (dcanvas w ++ [c])).

Definition CallClear (obj : exec val) : exec unit :=
  attr obj ;; emit DClear.

Definition CallCircle (obj x y radius fill : exec val) : exec unit :=
  attr obj ;;
  let* a := x in let* b := y in let* r := radius in let* f := fill in
  emit (DCircle a b r f).

Definition CallUpdate (obj : exec val) : exec unit :=
  attr obj ;; emit DFlush.

Definition update : exec unit :=
  AugAdd "ball_x" (Name "dx") ;;
  AugAdd "ball_y" (Name "dy") ;;
  If (Or (Gt (Add (Name "ball_x") (Name "ball_radius")) (Name "WIDTH"))
         (Lt (Sub (Name "ball_x") (Name "ball_radius")) (Const 0)))
     (Assign "dx" (Neg (Name "dx"))) ;;
  If (Or (Gt (Add (Name "ball_y") (Name "ball_radius")) (Name "HEIGHT"))
         (Lt (Sub (Name "ball_y") (Name "ball_radius")) (Const 0)))
     (Assign "dy" (Neg (Name "dy"))) ;;
  CallClear (Name "canvas") ;;
  CallCircle (Name "canvas")
             (Name "ball_x") (Name "ball_y") (Name "ball_radius") (Name "ball_color") ;;
  CallUpdate (Name "canvas").

(** [n] frames, stopping at the first one that raises. *)

Fixpoint frames (n : nat) : exec unit :=
  match n with
  | O => ret tt
  | S k => update ;; frames k
  end.

(** A dictionary [m] holds the typed variables [g]: each of the module's
    names is bound to the corresponding value.  Other names are free to
    be bound to anything. *)

Definition holds (m : gmap string val) (g : globals) : Prop :=
  m !! "WIDTH" = Some (VInt (WIDTH g)) /\
  m !! "HEIGHT" = Some (VInt (HEIGHT g)) /\
  m !! "ball_x" = Some (VInt (ball_x g)) /\
  m !! "ball_y" = Some (VInt (ball_y g)) /\
  m !! "ball_radius" = Some (VInt (ball_radius g)) /\
  m !! "dx" = Some (VInt (dx g)) /\
  m !! "dy" = Some (VInt (dy g)) /\
  m !! "ball_color" = Some (VStr (ball_color g)) /\
  m !! "canvas" = Some VCanvas.

Definition dcall_of (c : canvas_call) : dcall :=
  match c with
  | Clear => DClear
  | Circle x y r f => DCircle (VInt x) (VInt y) (VInt r) (VStr f)
  | Flush => DFlush
  end.

(** The dictionary the module body builds (lines 4-14), read off the
    typed variables. *)

Definition dict_of (g : globals) : gmap string val :=
  <["WIDTH" := VInt (WIDTH g)]>
  (<["HEIGHT" := VInt (HEIGHT g)]>
  (<["canvas" := VCanvas]>
  (<["ball_x" := VInt (ball_x g)]>
  (<["ball_y" := VInt (ball_y g)]>
  (<["ball_radius" := VInt (ball_radius g)]>
  (<["dx" := VInt (dx g)]>
  (<["dy" := VInt (dy g)]>
  (<["ball_color" := VStr (ball_color g)]> ∅)))))))).

Definition embed (w : world) : dworld :=
  DWorld (dict_of (vars w)) (map dcall_of (canvas w)).

End Dyn.

(** ** The order of effects

    [update] once more, over the variables alone, keeping a trace of what
    it does in the order it does it: each rebinding of a module variable,
    each evaluation of an [if] condition (with the source line and the
    outcome), and each canvas call. *)

Module Traced.

Inductive event : Type :=
| Write (name : string) (v : Z)          (* name = v, or name += ... *)
| Test (line : Z) (outcome : bool)       (* the condition of the [if] on that line *)
| Call (c : canvas_call).                (* a method call on the canvas *)

Record tworld : Type := TWorld {
  tvars : globals;
  trace : list event
}.

Definition tstmt : Type := tworld -> tworld.

Definition tseq (s1 s2 : tstmt) : tstmt := fun t => s2 (s1 t).

Definition tassign (name : string) (set : Z -> globals -> globals) (e : expr Z) : tstmt :=
  fun t =>
    let v := e (tvars t) in
    TWorld (set v (tvars t)) (trace t ++ [Write name v]).

Definition twhen (line : Z) (c : expr bool) (body : tstmt) : tstmt :=
  fun t =>
    let b := c (tvars t) in
    let t' := TWorld (tvars t) (trace t ++ [Test line b]) in
    if b then body t' else t'.

Definition tcall (c : expr canvas_call) : tstmt :=
  fun t => TWorld (tvars t) (trace t ++ [Call (c (tvars t))]).

Declare Scope tstmt_scope.
Delimit Scope tstmt_scope with tstmt.
Notation "s1 ;; s2" := (tseq s1 s2)
  (at level 100, s2 at level 200, right associativity) : tstmt_scope.

Definition update : tstmt :=
  (tassign "ball_x" set_ball_x (fun g => ball_x g + dx g) ;;
   tassign "ball_y" set_ball_y (fun g => ball_y g + dy g) ;;
   twhen 24 hits_x (tassign "dx" set_dx (fun g => - dx g)) ;;
   twhen 26 hits_y (tassign "dy" set_dy (fun g => - dy g)) ;;
   tcall (fun _ => Clear) ;;
   tcall (fun g => Circle (ball_x g) (ball_y g) (ball_radius g) (ball_color g)) ;;
   tcall (fun _ => Flush))%tstmt.

(** The canvas calls of a trace, in order. *)

Fixpoint calls (tr : list event) : list canvas_call :=
  match tr with
  | [] => []
  | Call c :: rest => c :: calls rest
  | _ :: rest => calls rest
  end.

End Traced.

(** ** Python's numbers, and a canvas that can fail

    The dictionary layer again, widened in two directions.  Values may be
    floats: Python's [float] is IEEE 754 binary64, taken here from the
    standard library's specification of that format, and an [int] that
    meets a [float] in an operator is first converted, which raises
    [OverflowError] when it does not fit.  And the canvas is a
    collaborator that may refuse a call: [surface log c] is the exception
    it raises, if any, when sent [c] after the calls in [log]. *)

(** The two parameters of binary64: 53 bits of precision, and 1024 as the
    exponent of the infinities. *)

Definition prec : Z := 53.
Definition emax : Z := 1024.

Module Py.

Abbreviation float := spec_float.

Inductive val : Type :=
| VInt (n : Z)
| VFloat (f : float)
| VStr (s : string)
| VCanvas.

Inductive exn : Type :=
| NameError (x : string)
| TypeError
| AttributeError
| OverflowError
| External (what : string).        (* raised inside simplekit *)

Inductive pcall : Type :=
| PClear
| PCircle (x y radius fill : val)
| PFlush.

Record pworld : Type := PWorld {
  pvars : gmap string val;
  plog : list pcall
}.

Inductive outcome (A : Type) : Type :=
| Ok (a : A) (w : pworld)
| Raise (e : exn).
Arguments Ok {A} a w.
Arguments Raise {A} e.

Definition exec (A : Type) : Type := pworld -> outcome A.

Definition ret {A} (a : A) : exec A := fun w => Ok a w.

Definition bind {A B} (m : exec A) (k : A -> exec B) : exec B :=
  fun w => match m w with
           | Ok a w' => k a w'
           | Raise e => Raise e
           end.

Definition raise {A} (e : exn) : exec A := fun _ => Raise e.

Declare Scope py_scope.
Delimit Scope py_scope with py.
Notation "'let*' x ':=' c1 'in' c2" := (bind c1 (fun x => c2))
  (at level 10, x name, c1 at level 100, c2 at level 200) : py_scope.
Notation "c1 ;; c2" := (bind c1 (fun _ => c2))
  (at level 100, c2 at level 200, right associativity) : py_scope.
Local Open Scope py_scope.

(** [float(n)] for an [int]: the nearest double, ties to even;
    [OverflowError] when that would be an infinity. *)

Definition to_float (n : Z) : option float :=
  match binary_normalize prec emax n 0 false with
  | S754_infinity _ => None
  | f => Some f
  end.

Definition coerce (n : Z) : exec float :=
  match to_float n with
  | Some f => ret f
  | None => raise OverflowError
  end.

(** A [float] against an [int]: Python compares the exact values,
    converting neither; a NaN compares as unordered. *)

Definition compare_float_int (f : float) (n : Z) : option comparison :=
  match f with
  | S754_nan => None
  | S754_infinity false => Some Gt
  | S754_infinity true => Some Lt
  | S754_zero _ => Some (0 ?= n)
  | S754_finite s m e =>
      let v := cond_Zopp s (Zpos m) in
      if 0 <=? e then Some (v * 2 ^ e ?= n)
      else Some (v ?= n * 2 ^ (- e))
  end.

Definition float_lt_int (f : float) (n : Z) : bool :=
  match compare_float_int f n with Some Lt => true | _ => false end.

Definition float_gt_int (f : float) (n : Z) : bool :=
  match compare_float_int f n with Some Gt => true | _ => false end.

Definition add (a b : val) : exec val :=
  match a, b with
  | VInt m, VInt n => ret (VInt (m + n))
  | VFloat f, VFloat g => ret (VFloat (SFadd prec emax f g))
  | VInt m, VFloat g => let* f := coerce m in ret (VFloat (SFadd prec emax f g))
  | VFloat f, VInt n => let* g := coerce n in ret (VFloat (SFadd prec emax f g))
  | VStr s, VStr t => ret (VStr (s ++ t))
  | _, _ => raise TypeError
  end.

Definition sub (a b : val) : exec val :=
  match a, b with
  | VInt m, VInt n => ret (VInt (m - n))
  | VFloat f, VFloat g => ret (VFloat (SFsub prec emax f g))
  | VInt m, VFloat g => let* f := coerce m in ret (VFloat (SFsub prec emax f g))
  | VFloat f, VInt n => let* g := coerce n in ret (VFloat (SFsub prec emax f g))
  | _, _ => raise TypeError
  end.

Definition neg (a : val) : exec val :=
  match a with
  | VInt m => ret (VInt (- m))
  | VFloat f => ret (VFloat (SFopp f))
  | _ => raise TypeError
  end.

Definition gt (a b : val) : exec bool :=
  match a, b with
  | VInt m, VInt n => ret (m >? n)
  | VFloat f, VFloat g => ret (SFltb g f)
  | VInt m, VFloat g => ret (float_lt_int g m)
  | VFloat f, VInt n => ret (float_gt_int f n)
  | VStr s, VStr t => ret (String.ltb t s)
  | _, _ => raise TypeError
  end.

Definition lt (a b : val) : exec bool :=
  match a, b with
  | VInt m, VInt n => ret (m <? n)
  | VFloat f, VFloat g => ret (SFltb f g)
  | VInt m, VFloat g => ret (float_gt_int g m)
  | VFloat f, VInt n => ret (float_lt_int f n)
  | VStr s, VStr t => ret (String.ltb s t)
  | _, _ => raise TypeError
  end.

(** Expressions. *)

Definition Name (x : string) : exec val :=
  fun w => match pvars w !! x with
           | Some v => Ok v w
           | None => Raise (NameError x)
           end.

Definition Const (n : Z) : exec val := ret (VInt n).

Definition Add (e1 e2 : exec val) : exec val :=
  let* a := e1 in let* b := e2 in add a b.

Definition Sub (e1 e2 : exec val) : exec val :=
  let* a := e1 in let* b := e2 in sub a b.

Definition Neg (e : exec val) : exec val :=
  let* a := e in neg a.

Definition Gt (e1 e2 : exec val) : exec bool :=
  let* a := e1 in let* b := e2 in gt a b.

Definition Lt (e1 e2 : exec val) : exec bool :=
  let* a := e1 in let* b := e2 in lt a b.

Definition Or (e1 e2 : exec bool) : exec bool :=
  let* a := e1 in if a then ret true else e2.

(** Statements. *)

Definition Assign (x : string) (e : exec val) : exec unit :=
  let* v := e in
  fun w => Ok tt (PWorld (<[x := v]> (pvars w)) (plog w)).

Definition AugAdd (x : string) (e : exec val) : exec unit :=
  let* a := Name x in let* b := e in let* v := add a b in
  fun w => Ok tt (PWorld (<[x := v]> (pvars w)) (plog w)).

Definition If (c : exec bool) (body : exec unit) : exec unit :=
  let* b := c in if b then body else ret tt.

Definition attr (obj : exec val) : exec unit :=
  let* o := obj in
  match o with
  | VCanvas => ret tt
  | _ => raise AttributeError
  end.

Section Surface.

Variable surface : list pcall -> pcall -> option exn.

(** The call reaches the canvas, which records it or raises. *)

Definition send (c : pcall) : exec unit :=
  fun w => match surface (plog w) c with
           | Some e => Raise e
           | None => Ok tt (PWorld (pvars w) (plog w ++ [c]))
           end.

Definition CallClear (obj : exec val) : exec unit :=
  attr obj ;; send PClear.

Definition CallCircle (obj x y radius fill : exec val) : exec unit :=
  attr obj ;;
  let* a := x in let* b := y in let* r := radius in let* f := fill in
  send (PCircle a b r f).

Definition CallUpdate (obj : exec val) : exec unit :=
  attr obj ;; send PFlush.

Definition update : exec unit :=
  AugAdd "ball_x" (Name "dx") ;;
  AugAdd "ball_y" (Name "dy") ;;
  If (Or (Gt (Add (Name "ball_x") (Name "ball_radius")) (Name "WIDTH"))
         (Lt (Sub (Name "ball_x") (Name "ball_radius")) (Const 0)))
     (Assign "dx" (Neg (Name "dx"))) ;;
  If (Or (Gt (Add (Name "ball_y") (Name "ball_radius")) (Name "HEIGHT"))
         (Lt (Sub (Name "ball_y") (Name "ball_radius")) (Const 0)))
     (Assign "dy" (Neg (Name "dy"))) ;;
  CallClear (Name "canvas") ;;
  CallCircle (Name "canvas")
             (Name "ball_x") (Name "ball_y") (Name "ball_radius") (Name "ball_color") ;;
  CallUpdate (Name "canvas").

Fixpoint frames (n : nat) : exec unit :=
  match n with
  | O => ret tt
  | S k => update ;; frames k
  end.

End Surface.

(** A canvas that accepts every call. *)

Definition obliging : list pcall -> pcall -> option exn := fun _ _ => None.

(** ** Ball states

    On one axis, a position and a velocity that are each an [int] or a
    [float].  If both are [int]s nothing is ever converted.  Otherwise the
    radius, which is an [int], meets a [float] and must fit in one, and so
    must whichever of the two is an [int]. *)

Definition axis_ok (radius : Z) (p v : val) : Prop :=
  match p, v with
  | VInt _, VInt _ => True
  | VInt a, VFloat _ => is_Some (to_float a) /\ is_Some (to_float radius)
  | VFloat _, VInt b => is_Some (to_float b) /\ is_Some (to_float radius)
  | VFloat _, VFloat _ => is_Some (to_float radius)
  | _, _ => False
  end.

(** The module's dictionary with the canvas size and radius as the module
    sets them up, integers, and such a ball. *)

Definition runnable (m : gmap string val) : Prop :=
  exists (W H r : Z) (x y vx vy c : val),
    m !! "WIDTH" = Some (VInt W) /\
    m !! "HEIGHT" = Some (VInt H) /\
    m !! "ball_radius" = Some (VInt r) /\
    m !! "ball_x" = Some x /\
    m !! "ball_y" = Some y /\
    m !! "dx" = Some vx /\
    m !! "dy" = Some vy /\
    m !! "ball_color" = Some c /\
    m !! "canvas" = Some VCanvas /\
    axis_ok r x vx /\
    axis_ok r y vy.

(** A ball state in the widest sense: position and velocity are numbers,
    each an [int] or a [float]. *)

Definition number (v : val) : Prop :=
  match v with
  | VInt _ | VFloat _ => True
  | _ => False
  end.

Definition numeric (m : gmap string val) : Prop :=
  exists (W H r : Z) (x y vx vy c : val),
    m !! "WIDTH" = Some (VInt W) /\
    m !! "HEIGHT" = Some (VInt H) /\
    m !! "ball_radius" = Some (VInt r) /\
    m !! "ball_x" = Some x /\
    m !! "ball_y" = Some y /\
    m !! "dx" = Some vx /\
    m !! "dy" = Some vy /\
    m !! "ball_color" = Some c /\
    m !! "canvas" = Some VCanvas /\
    number x /\ number y /\ number vx /\ number vy.

(** The dictionary of the module as it stands after lines 4-14, with the
    ball's position and velocity replaced. *)

Definition dict (x y vx vy : val) : gmap string val :=
  <["WIDTH" := VInt 800]>
  (<["HEIGHT" := VInt 600]>
  (<["canvas" := VCanvas]>
  (<["ball_x" := x]>
  (<["ball_y" := y]>
  (<["ball_radius" := VInt 20]>
  (<["dx" := vx]>
  (<["dy" := vy]>
  (<["ball_color" := VStr "red"]> ∅)))))))).

(** The dictionary that holds the typed variables, as in [Dyn]. *)

Definition holds (m : gmap string val) (g : globals) : Prop :=
  m !! "WIDTH" = Some (VInt (WIDTH g)) /\
  m !! "HEIGHT" = Some (VInt (HEIGHT g)) /\
  m !! "ball_x" = Some (VInt (ball_x g)) /\
  m !! "ball_y" = Some (VInt (ball_y g)) /\
  m !! "ball_radius" = Some (VInt (ball_radius g)) /\
  m !! "dx" = Some (VInt (dx g)) /\
  m !! "dy" = Some (VInt (dy g)) /\
  m !! "ball_color" = Some (VStr (ball_color g)) /\
  m !! "canvas" = Some VCanvas.

Definition pcall_of (c : canvas_call) : pcall :=
  match c with
  | Clear => PClear
  | Circle x y r f => PCircle (VInt x) (VInt y) (VInt r) (VStr f)
  | Flush => PFlush
  end.

(** One half as a double, and ten to the four hundredth, an integer no
    double can hold. *)

Definition half : float := binary_normalize prec emax 1 (-1) false.

Definition googol4 : Z := 10 ^ 400.

End Py.

(** * Properties of the typed layer *)

(** Unfold the statements of [update] on a world given by its fields and
    split on the two wall tests. *)
Ltac unfold_update :=
  cbv beta iota zeta delta
      [update move_and_bounce redraw bounce_x bounce_y seq when assign call
       hits_x hits_y set_ball_x set_ball_y set_dx set_dy
       vars canvas WIDTH HEIGHT ball_x ball_y ball_radius dx dy ball_color].

Ltac run_update w :=
  destruct w as [[W H x y r vx vy c] log]; unfold_update;
  repeat match goal with
         | |- context [if ?b then _ else _] => destruct b eqn:?
         end.

Ltac bool_to_Z :=
  repeat match goal with
         | H : (_ || _)%bool = true |- _ => apply orb_true_iff in H
         | H : (_ || _)%bool = false |- _ => apply orb_false_iff in H; destruct H
         | H : (_ >? _) = true |- _ => apply Z.gtb_lt in H
         | H : (_ <? _) = true |- _ => apply Z.ltb_lt in H
         | H : (_ >? _) = false |- _ => rewrite Z.gtb_ltb in H; apply Z.ltb_ge in H
         | H : (_ <? _) = false |- _ => apply Z.ltb_ge in H
         end.

Lemma update_split (w : world) : update w = redraw (move_and_bounce w).
Proof. reflexivity. Qed.

Lemma update_ball_x (w : world) :
  ball_x (vars (update w)) = ball_x (vars w) + dx (vars w).
Proof. run_update w; first [reflexivity | congruence]. Qed.

Lemma update_ball_y (w : world) :
  ball_y (vars (update w)) = ball_y (vars w) + dy (vars w).
Proof. run_update w; first [reflexivity | congruence]. Qed.

Lemma update_dx (w : world) :
  let g := vars w in
  let x' := ball_x g + dx g in
  dx (vars (update w)) =
    if (x' + ball_radius g >? WIDTH g) || (x' - ball_radius g <? 0)
    then - dx g else dx g.
Proof. run_update w; first [reflexivity | congruence]. Qed.

Lemma update_dy (w : world) :
  let g := vars w in
  let y' := ball_y g + dy g in
  dy (vars (update w)) =
    if (y' + ball_radius g >? HEIGHT g) || (y' - ball_radius g <? 0)
    then - dy g else dy g.
Proof. run_update w; first [reflexivity | congruence]. Qed.

Lemma update_frame (w : world) :
  WIDTH (vars (update w)) = WIDTH (vars w) /\
  HEIGHT (vars (update w)) = HEIGHT (vars w) /\
  ball_radius (vars (update w)) = ball_radius (vars w) /\
  ball_color (vars (update w)) = ball_color (vars w).
Proof. run_update w; first [congruence | auto]. Qed.

Lemma frames_S (n : nat) (w : world) : frames (S n) w = update (frames n w).
Proof.
  revert w; induction n as [|n IH]; intros w; [reflexivity|].
  change (frames (S (S n)) w) with (frames (S n) (update w)).
  rewrite IH. reflexivity.
Qed.

Lemma vars_update (w : world) : vars (update w) = step (vars w).
Proof. unfold step. run_update w; first [reflexivity | congruence]. Qed.

Lemma update_canvas (w : world) :
  canvas (update w) = canvas w ++ frame_calls (vars (update w)).
Proof.
  unfold frame_calls. run_update w;
    first [congruence | rewrite <- !app_assoc; reflexivity].
Qed.

(** ** One frame *)

(** C1.  The update negates [dx] when, after the move, the ball pokes
    through the right wall ([ball_x + ball_radius > WIDTH]) or the left
    wall ([ball_x - ball_radius < 0]), both comparisons strict, and leaves
    [dx] as it was otherwise. *)
Theorem update_reflects_x (w : world) :
  let g := vars w in
  let x' := ball_x g + dx g in
  ball_x (vars (update w)) = x' /\
  (x' + ball_radius g > WIDTH g \/ x' - ball_radius g < 0 ->
     dx (vars (update w)) = - dx g) /\
  (~ (x' + ball_radius g > WIDTH g \/ x' - ball_radius g < 0) ->
     dx (vars (update w)) = dx g).
Proof.
  intros g x'. split; [apply update_ball_x|].
  rewrite update_dx. fold g. cbv zeta. fold x'.
  destruct ((x' + ball_radius g >? WIDTH g) || (x' - ball_radius g <? 0))%bool eqn:E;
    bool_to_Z; split; intros Hhit; try reflexivity.
  - exfalso. apply Hhit. destruct E as [E|E]; bool_to_Z; lia.
  - exfalso. lia.
Qed.

(** C2.  After the update the position is the old position plus the old
    velocity, on both axes; the wall tests that follow the move change
    neither coordinate, so the position is never pulled back inside. *)
Theorem update_advances_position (w : world) :
  ball_x (vars (update w)) = ball_x (vars w) + dx (vars w) /\
  ball_y (vars (update w)) = ball_y (vars w) + dy (vars w) /\
  (forall u : world,
     ball_x (vars (bounce_x u)) = ball_x (vars u) /\
     ball_y (vars (bounce_x u)) = ball_y (vars u) /\
     ball_x (vars (bounce_y u)) = ball_x (vars u) /\
     ball_y (vars (bounce_y u)) = ball_y (vars u)).
Proof.
  split; [apply update_ball_x|]. split; [apply update_ball_y|].
  intros u. run_update u; auto.
Qed.

Example scenario_A :
  let g := vars (update initial) in
  (ball_x g, ball_y g, dx g, dy g) = (405, 305, 5, 5).
Proof. reflexivity. Qed.

Example scenario_B :
  let g := vars (update (placed 785 300 5 5)) in
  (ball_x g, ball_y g, dx g, dy g) = (790, 305, -5, 5).
Proof. reflexivity. Qed.

(** C3.  The test on the Y axis mirrors the one on the X axis, with
    [HEIGHT] for [WIDTH], and looks at nothing the X test changes; both
    can fire in one update, as from position (15,15) with velocity (-5,-5)
    and radius 20, which ends at (10,10) with velocity (5,5). *)
Theorem update_reflects_y :
  (forall w : world,
     let g := vars w in
     let y' := ball_y g + dy g in
     ball_y (vars (update w)) = y' /\
     (y' + ball_radius g > HEIGHT g \/ y' - ball_radius g < 0 ->
        dy (vars (update w)) = - dy g) /\
     (~ (y' + ball_radius g > HEIGHT g \/ y' - ball_radius g < 0) ->
        dy (vars (update w)) = dy g)) /\
  (let g := vars (update (placed 15 15 (-5) (-5))) in
   (ball_x g, ball_y g, dx g, dy g) = (10, 10, 5, 5)).
Proof.
  split; [|reflexivity].
  intros w g y'. split; [apply update_ball_y|].
  rewrite update_dy. fold g. cbv zeta. fold y'.
  destruct ((y' + ball_radius g >? HEIGHT g) || (y' - ball_radius g <? 0))%bool eqn:E;
    bool_to_Z; split; intros Hhit; try reflexivity.
  - exfalso. apply Hhit. destruct E as [E|E]; bool_to_Z; lia.
  - exfalso. lia.
Qed.

Lemma traced_calls_app (a b : list Traced.event) :
  Traced.calls (a ++ b) = Traced.calls a ++ Traced.calls b.
Proof.
  induction a as [|[n v|l o|c] a IH]; cbn [Traced.calls app];
    [reflexivity | exact IH | exact IH | rewrite IH; reflexivity].
Qed.

(** What one frame appends to the trace, given the variables it starts
    from. *)
Lemma traced_update (g : globals) (tr : list Traced.event) :
  let x' := ball_x g + dx g in
  let y' := ball_y g + dy g in
  let hx := (x' + ball_radius g >? WIDTH g) || (x' - ball_radius g <? 0) in
  let hy := (y' + ball_radius g >? HEIGHT g) || (y' - ball_radius g <? 0) in
  Traced.trace (Traced.update (Traced.TWorld g tr)) =
    tr ++ [Traced.Write "ball_x" x'; Traced.Write "ball_y" y']
       ++ [Traced.Test 24 hx] ++ (if hx then [Traced.Write "dx" (- dx g)] else [])
       ++ [Traced.Test 26 hy] ++ (if hy then [Traced.Write "dy" (- dy g)] else [])
       ++ [Traced.Call Clear;
           Traced.Call (Circle x' y' (ball_radius g) (ball_color g));
           Traced.Call Flush] /\
  Traced.tvars (Traced.update (Traced.TWorld g tr)) = step g.
Proof.
  destruct g as [W H x y r vx vy c]. cbv zeta.
  unfold step. unfold_update.
  cbv beta iota zeta delta
      [Traced.update Traced.tseq Traced.tassign Traced.twhen Traced.tcall
       Traced.tvars Traced.trace hits_x hits_y set_ball_x set_ball_y set_dx set_dy
       WIDTH HEIGHT ball_x ball_y ball_radius dx dy ball_color].
  destruct ((x + vx + r >? W) || (x + vx - r <? 0))%bool,
           ((y + vy + r >? H) || (y + vy - r <? 0))%bool;
    cbv beta iota; (split; [rewrite <- ?app_assoc; reflexivity | reflexivity]).
Qed.

(** C4.  One update has exactly three canvas effects, in this order:
    clear, one circle at the new position with the ball's radius and
    colour, and the flush.  In the trace of the update they are the last
    three events; everything else the update does comes before the first
    of them: both position writes, the wall test of line 24 with its
    write to [dx] if it fires, and the wall test of line 26 with its
    write to [dy] if it fires.  The traced update computes the variables
    of [update], whose canvas log grows by the same three calls. *)
Theorem update_canvas_calls (w : world) (tr : list Traced.event) :
  let g := vars w in
  let g' := vars (update w) in
  let t := Traced.update (Traced.TWorld g tr) in
  let hx := hits_x (set_ball_x (ball_x g + dx g) g) in
  let hy := hits_y (set_ball_y (ball_y g + dy g) g) in
  let draw := [Clear; Circle (ball_x g') (ball_y g') (ball_radius g') (ball_color g'); Flush] in
  Traced.tvars t = g' /\
  Traced.trace t =
    tr ++ [Traced.Write "ball_x" (ball_x g + dx g);
           Traced.Write "ball_y" (ball_y g + dy g)]
       ++ [Traced.Test 24 hx] ++ (if hx then [Traced.Write "dx" (- dx g)] else [])
       ++ [Traced.Test 26 hy] ++ (if hy then [Traced.Write "dy" (- dy g)] else [])
       ++ map Traced.Call draw /\
  Traced.calls (Traced.trace t) = Traced.calls tr ++ draw /\
  canvas (update w) = canvas w ++ draw /\
  ball_x g' = ball_x g + dx g /\
  ball_y g' = ball_y g + dy g.
Proof.
  intros g g' t hx hy draw.
  destruct (traced_update g tr) as [Htr Hvars]. cbv zeta in Htr.
  assert (Eg : g' = step g) by (subst g g'; apply vars_update).
  assert (Ex : ball_x g' = ball_x g + dx g) by apply update_ball_x.
  assert (Ey : ball_y g' = ball_y g + dy g) by apply update_ball_y.
  destruct (update_frame w) as (_ & _ & Er & Ec). fold g g' in Er, Ec.
  assert (Edraw : map Traced.Call draw =
                  [Traced.Call Clear;
                   Traced.Call (Circle (ball_x g + dx g) (ball_y g + dy g)
                                       (ball_radius g) (ball_color g));
                   Traced.Call Flush])
    by (subst draw; rewrite Ex, Ey, Er, Ec; reflexivity).
  assert (Etrace : Traced.trace t =
    tr ++ [Traced.Write "ball_x" (ball_x g + dx g);
           Traced.Write "ball_y" (ball_y g + dy g)]
       ++ [Traced.Test 24 hx] ++ (if hx then [Traced.Write "dx" (- dx g)] else [])
       ++ [Traced.Test 26 hy] ++ (if hy then [Traced.Write "dy" (- dy g)] else [])
       ++ map Traced.Call draw).
  { rewrite Edraw. subst t. rewrite Htr. subst hx hy.
    destruct g as [W H x y r vx vy c]. reflexivity. }
  split; [subst t; rewrite Hvars; symmetry; exact Eg|].
  split; [exact Etrace|].
  split; [|split; [|split; [exact Ex | exact Ey]]].
  - rewrite Etrace, traced_calls_app. f_equal.
    destruct hx, hy; reflexivity.
  - subst draw g'. rewrite update_canvas. reflexivity.
Qed.

(** C5.  There is a state from which one update leaves the ball past the
    right edge with [dx] reversed and the position exactly where the move
    put it; the run from [initial] gets to such a state at its 77th
    frame. *)
Theorem update_can_overhang :
  (exists w : world,
     let g := vars w in
     let g' := vars (update w) in
     dx g <> 0 /\
     ball_x g' + ball_radius g' > WIDTH g' /\
     dx g' = - dx g /\
     ball_x g' = ball_x g + dx g) /\
  (let g := vars (frames 76 initial) in
   let g' := vars (frames 77 initial) in
   ball_x g' + ball_radius g' > WIDTH g' /\
   dx g' = - dx g /\
   ball_x g' = ball_x g + dx g).
Proof.
  split.
  - exists (placed 785 300 5 5). cbv zeta.
    repeat split; try reflexivity; vm_compute; congruence.
  - vm_compute. repeat split.
Qed.

(** C9.  The update keeps the absolute value of each velocity component:
    all it ever does to [dx] and [dy] is change their sign. *)
Theorem update_preserves_speed (w : world) :
  Z.abs (dx (vars (update w))) = Z.abs (dx (vars w)) /\
  Z.abs (dy (vars (update w))) = Z.abs (dy (vars w)).
Proof.
  rewrite update_dx, update_dy. cbv zeta.
  split; match goal with |- context [if ?b then _ else _] => destruct b end;
    auto using Z.abs_opp.
Qed.

(** C10.  A ball that the move leaves exactly touching a wall is not
    reflected: on each axis, with the far side of the disc on the far
    wall or the near side on the near wall (and the other side not past
    its own wall), the velocity component is unchanged.  The run from
    [initial] reaches such a state: its 76th frame leaves the ball at
    x = 780, touching the right wall, still moving right. *)
Theorem tangent_ball_keeps_velocity :
  (forall w : world,
     let g := vars w in
     let g' := vars (update w) in
     (ball_x g' + ball_radius g = WIDTH g -> ball_x g' - ball_radius g >= 0 ->
        dx g' = dx g) /\
     (ball_x g' - ball_radius g = 0 -> ball_x g' + ball_radius g <= WIDTH g ->
        dx g' = dx g) /\
     (ball_y g' + ball_radius g = HEIGHT g -> ball_y g' - ball_radius g >= 0 ->
        dy g' = dy g) /\
     (ball_y g' - ball_radius g = 0 -> ball_y g' + ball_radius g <= HEIGHT g ->
        dy g' = dy g)) /\
  (let g := vars (frames 75 initial) in
   let g' := vars (update (frames 75 initial)) in
   frames 76 initial = update (frames 75 initial) /\
   ball_x g' = 780 /\ ball_radius g' = 20 /\ WIDTH g' = 800 /\
   ball_x g' + ball_radius g' = WIDTH g' /\
   dx g = 5 /\ dx g' = 5).
Proof.
  split.
  - intros w g g'. subst g'.
    rewrite update_ball_x, update_ball_y, update_dx, update_dy. fold g. cbv zeta.
    repeat split; intros H1 H2;
      match goal with |- context [if ?b then _ else _] => destruct b eqn:E end;
      try reflexivity; exfalso; bool_to_Z; destruct E as [E|E]; bool_to_Z; lia.
  - cbv zeta. split; [apply (frames_S 75)|]. vm_compute. repeat split.
Qed.

(** ** Any number of frames *)

Lemma frames_frame (n : nat) (w : world) :
  WIDTH (vars (frames n w)) = WIDTH (vars w) /\
  HEIGHT (vars (frames n w)) = HEIGHT (vars w) /\
  ball_radius (vars (frames n w)) = ball_radius (vars w) /\
  ball_color (vars (frames n w)) = ball_color (vars w).
Proof.
  revert w; induction n as [|n IH]; intros w; [auto|].
  cbn [frames]. destruct (IH (update w)) as (-> & -> & -> & ->).
  apply update_frame.
Qed.

(** C6.  Radius and colour are the same after any number of updates as
    before them, from any state; in the run from [initial] they stay 20
    and "red".  An update writes only the position and the velocity: the
    canvas size is untouched as well. *)
Theorem frames_keep_radius_and_color (n : nat) :
  (forall w : world,
     ball_radius (vars (frames n w)) = ball_radius (vars w) /\
     ball_color (vars (frames n w)) = ball_color (vars w) /\
     WIDTH (vars (frames n w)) = WIDTH (vars w) /\
     HEIGHT (vars (frames n w)) = HEIGHT (vars w)) /\
  ball_radius (vars (frames n initial)) = 20 /\
  ball_color (vars (frames n initial)) = "red".
Proof.
  split.
  - intros w. destruct (frames_frame n w) as (? & ? & ? & ?). auto.
  - destruct (frames_frame n initial) as (_ & _ & -> & ->). split; reflexivity.
Qed.

(** One axis of one frame keeps the centre on its track. *)
Lemma on_track_step (limit p v : Z) :
  (limit = 800 \/ limit = 600) ->
  on_track limit p v ->
  on_track limit (p + v)
    (if (p + v + 20 >? limit) || (p + v - 20 <? 0) then - v else v).
Proof.
  intros Hl ([k Hk] & Hb & Hv & Hhi & Hlo).
  assert (Hgrid : exists k', p + v = 5 * k').
  { destruct Hv as [-> | ->]; [exists (k + 1) | exists (k - 1)]; lia. }
  destruct ((p + v + 20 >? limit) || (p + v - 20 <? 0))%bool eqn:E; bool_to_Z.
  - split; [exact Hgrid|]. destruct Hgrid as [k' Hk'].
    destruct E as [E|E]; bool_to_Z; lia.
  - split; [exact Hgrid|]. destruct Hgrid as [k' Hk']. lia.
Qed.

Lemma invariant_initial : invariant (vars initial).
Proof.
  unfold invariant, on_track; cbn.
  change (800 / 2) with 400. change (600 / 2) with 300.
  repeat split; try lia; [exists 80 | exists 60]; reflexivity.
Qed.

Lemma invariant_update (w : world) :
  invariant (vars w) -> invariant (vars (update w)).
Proof.
  intros (HW & HH & Hr & Hx & Hy).
  destruct (update_frame w) as (EW & EH & Er & _).
  unfold invariant. rewrite EW, EH, Er, update_ball_x, update_ball_y, update_dx, update_dy.
  cbv zeta. rewrite HW, HH, Hr.
  do 3 (split; [reflexivity|]).
  split; apply on_track_step; auto.
Qed.

Lemma invariant_frames (n : nat) : invariant (vars (frames n initial)).
Proof.
  induction n as [|n IH]; [apply invariant_initial|].
  rewrite frames_S. apply invariant_update, IH.
Qed.

(** C8.  In the run from [initial] (canvas 800 by 600, ball at (400,300)
    with velocity (5,5) and radius 20), after any number of frames the
    centre has 15 <= x <= 785 and 15 <= y <= 585 and each velocity
    component is 5 or -5.  So the disc is never more than 5 pixels past an
    edge, and on each axis a frame that ends with the disc past an edge is
    followed by one that ends with it between the walls. *)
Theorem run_stays_near_canvas (n : nat) :
  let g := vars (frames n initial) in
  let g' := vars (frames (S n) initial) in
  (15 <= ball_x g <= 785 /\ 15 <= ball_y g <= 585) /\
  ((dx g = 5 \/ dx g = -5) /\ (dy g = 5 \/ dy g = -5)) /\
  (-5 <= ball_x g - ball_radius g /\ ball_x g + ball_radius g <= WIDTH g + 5 /\
   -5 <= ball_y g - ball_radius g /\ ball_y g + ball_radius g <= HEIGHT g + 5) /\
  (~ within (WIDTH g) (ball_radius g) (ball_x g) ->
     within (WIDTH g') (ball_radius g') (ball_x g')) /\
  (~ within (HEIGHT g) (ball_radius g) (ball_y g) ->
     within (HEIGHT g') (ball_radius g') (ball_y g')).
Proof.
  intros g g'.
  pose proof (invariant_frames n) as (HW & HH & Hr & Hx & Hy).
  pose proof (invariant_frames (S n)) as (HW' & HH' & Hr' & _).
  assert (Ex : ball_x g' = ball_x g + dx g)
    by (subst g g'; rewrite frames_S; apply update_ball_x).
  assert (Ey : ball_y g' = ball_y g + dy g)
    by (subst g g'; rewrite frames_S; apply update_ball_y).
  fold g in HW, HH, Hr, Hx, Hy. fold g' in HW', HH', Hr'.
  destruct Hx as ([kx Hkx] & Hbx & Hvx & Hhx & Hlx).
  destruct Hy as ([ky Hky] & Hby & Hvy & Hhy & Hly).
  unfold within. rewrite HW, HH, Hr, HW', HH', Hr', Ex, Ey.
  repeat split; try assumption; lia.
Qed.

(** * The dictionary layer agrees with the typed layer *)

Ltac unfold_dyn :=
  cbv beta iota zeta delta
      [Dyn.update Dyn.AugAdd Dyn.Assign Dyn.If Dyn.Or Dyn.Gt Dyn.Lt Dyn.Add Dyn.Sub
       Dyn.Neg Dyn.Name Dyn.Const Dyn.CallClear Dyn.CallCircle Dyn.CallUpdate
       Dyn.attr Dyn.emit Dyn.add Dyn.sub Dyn.neg Dyn.gt Dyn.lt
       Dyn.bind Dyn.ret Dyn.raise Dyn.dvars Dyn.dcanvas].

Ltac lookups :=
  repeat first [ rewrite lookup_insert_eq
               | rewrite lookup_insert_ne by discriminate ].

Lemma holds_dict_of (g : globals) : Dyn.holds (Dyn.dict_of g) g.
Proof. unfold Dyn.holds, Dyn.dict_of. repeat split; lookups; reflexivity. Qed.

(** One frame of the dictionary version, from a dictionary that holds the
    typed variables, ends normally in a dictionary that holds the typed
    result, having sent the canvas the same calls. *)
Lemma update_simulation (m : gmap string Dyn.val) (w : world) :
  Dyn.holds m (vars w) ->
  exists m' : gmap string Dyn.val,
    Dyn.update (Dyn.DWorld m (map Dyn.dcall_of (canvas w))) =
      Dyn.Ok tt (Dyn.DWorld m' (map Dyn.dcall_of (canvas (update w)))) /\
    Dyn.holds m' (vars (update w)).
Proof.
  destruct w as [[W H x y r vx vy c] log]. unfold Dyn.holds. cbn.
  intros (HW & HH & Hx & Hy & Hr & Hvx & Hvy & Hc & Hcv).
  unfold_dyn. unfold_update. unfold orb.
  destruct (x + vx + r >? W) eqn:E1, (x + vx - r <? 0) eqn:E2,
           (y + vy + r >? H) eqn:E3, (y + vy - r <? 0) eqn:E4.
  all: repeat (first [ rewrite lookup_insert_eq
                     | rewrite lookup_insert_ne by discriminate
                     | rewrite Hx | rewrite Hy | rewrite Hvx | rewrite Hvy
                     | rewrite Hr | rewrite HW | rewrite HH | rewrite Hc | rewrite Hcv
                     | rewrite E1 | rewrite E2 | rewrite E3 | rewrite E4 ];
               cbv beta iota).
  all: eexists; (split; [rewrite !map_app; reflexivity|]).
  all: repeat split; lookups; assumption || reflexivity.
Qed.

Lemma frames_simulation (n : nat) :
  forall (m : gmap string Dyn.val) (w : world),
    Dyn.holds m (vars w) ->
    exists m' : gmap string Dyn.val,
      Dyn.frames n (Dyn.DWorld m (map Dyn.dcall_of (canvas w))) =
        Dyn.Ok tt (Dyn.DWorld m' (map Dyn.dcall_of (canvas (frames n w)))) /\
      Dyn.holds m' (vars (frames n w)).
Proof.
  induction n as [|n IH]; intros m w Hm.
  - exists m. split; [reflexivity | exact Hm].
  - destruct (update_simulation m w Hm) as (m1 & Hrun & Hm1).
    destruct (IH m1 (update w) Hm1) as (m2 & Hrest & Hm2).
    exists m2. split; [|exact Hm2].
    cbn [Dyn.frames frames]. unfold Dyn.bind. rewrite Hrun. exact Hrest.
Qed.

(** The dictionary version does raise where Python would: with no names
    bound, at the first lookup; with a string for a velocity, at the
    addition; with a number for the canvas, at the method lookup, after
    the arithmetic has been done. *)

Example update_raises_without_names :
  Dyn.update (Dyn.DWorld ∅ []) = Dyn.Raise (Dyn.NameError "ball_x").
Proof. vm_compute. reflexivity. Qed.

Example update_raises_on_string_velocity :
  Dyn.update (Dyn.DWorld (<["dx" := Dyn.VStr "5"]> (Dyn.dict_of initial_globals)) []) =
  Dyn.Raise Dyn.TypeError.
Proof. vm_compute. reflexivity. Qed.

Example update_raises_without_canvas :
  Dyn.update (Dyn.DWorld (<["canvas" := Dyn.VInt 0]> (Dyn.dict_of initial_globals)) []) =
  Dyn.Raise Dyn.AttributeError.
Proof. vm_compute. reflexivity. Qed.

Example first_frame_calls :
  canvas (update initial) = [Clear; Circle 405 305 20 "red"; Flush].
Proof. reflexivity. Qed.

(** * Numbers of either kind never make a frame raise *)

Lemma binary_round_sign (s1 s2 : bool) (m : positive) (e : Z) :
  (exists s, binary_round prec emax s1 m e = S754_infinity s) ->
  (exists s, binary_round prec emax s2 m e = S754_infinity s).
Proof.
  unfold binary_round, binary_round_aux.
  destruct (shl_align _ _ _) as [mz ez].
  destruct (shr_fexp _ _ _ _ _) as [mrs' e'].
  destruct (shr_fexp _ _ _ _ _) as [mrs'' e''].
  destruct (shr_m mrs'') as [|p|p]; intros [s Hs]; try discriminate Hs.
  destruct (e'' <=? emax - prec); try discriminate Hs.
  eexists; reflexivity.
Qed.

Lemma to_float_opp (n : Z) : is_Some (Py.to_float n) -> is_Some (Py.to_float (- n)).
Proof.
  destruct n as [|p|p]; [exact id| |]; unfold Py.to_float.
  - change (- Z.pos p) with (Z.neg p). unfold binary_normalize. intros Hn.
    destruct (binary_round prec emax true p 0) eqn:E; try (eexists; reflexivity).
    exfalso. destruct (binary_round_sign true false p 0 (ex_intro _ _ E)) as [s' E'].
    rewrite E' in Hn. destruct Hn as [? Hn]; discriminate Hn.
  - change (- Z.neg p) with (Z.pos p). unfold binary_normalize. intros Hn.
    destruct (binary_round prec emax false p 0) eqn:E; try (eexists; reflexivity).
    exfalso. destruct (binary_round_sign false true p 0 (ex_intro _ _ E)) as [s' E'].
    rewrite E' in Hn. destruct Hn as [? Hn]; discriminate Hn.
Qed.

Ltac unfold_py :=
  cbv beta iota zeta delta
      [Py.update Py.AugAdd Py.Assign Py.If Py.Or Py.Gt Py.Lt Py.Add Py.Sub
       Py.Neg Py.Name Py.Const Py.CallClear Py.CallCircle Py.CallUpdate
       Py.attr Py.send Py.add Py.sub Py.neg Py.gt Py.lt Py.coerce
       Py.bind Py.ret Py.raise Py.pvars Py.plog].

Ltac py_step :=
  first
    [ rewrite lookup_insert_eq
    | rewrite lookup_insert_ne by discriminate
    | match goal with
      | H : ?m !! ?k = Some _ |- context [?m !! ?k] => rewrite H
      | H : Py.to_float ?n = Some _ |- context [Py.to_float ?n] => rewrite H
      | H : forall log c, ?s log c = None |- context [?s _ _] => rewrite H
      end
    | match goal with
      | |- context [if ?b then _ else _] => destruct b
      end ];
  cbv beta iota.

Ltac conversions :=
  repeat match goal with
         | H : _ /\ _ |- _ => destruct H
         | H : is_Some (Py.to_float ?n) |- _ =>
             lazymatch goal with
             | _ : Py.to_float n = Some _ |- _ => fail
             | _ => let f := fresh "f" in let E := fresh "E" in
                    pose proof H as [f E]
             end
         end.

Lemma py_update_runs (surface : list Py.pcall -> Py.pcall -> option Py.exn)
      (m : gmap string Py.val) (log : list Py.pcall) :
  (forall l c, surface l c = None) ->
  Py.runnable m ->
  exists (m' : gmap string Py.val) (x y r f : Py.val),
    Py.update surface (Py.PWorld m log) =
      Py.Ok tt (Py.PWorld m' (log ++ [Py.PClear; Py.PCircle x y r f; Py.PFlush])) /\
    Py.runnable m'.
Proof.
  intros Hq (W & H & r & x & y & vx & vy & c &
             HW & HH & Hr & Hx & Hy & Hvx & Hvy & Hc & Hcv & Ax & Ay).
  destruct x, vx; cbn [Py.axis_ok] in Ax; try contradiction;
    destruct y, vy; cbn [Py.axis_ok] in Ay; try contradiction.
  all: conversions.
  all: unfold_py; repeat py_step.
  all: eexists; do 4 eexists; (split; [rewrite <- !app_assoc; reflexivity|]).
  all: unfold Py.runnable; do 8 eexists; split_and!; lookups;
    try reflexivity; try eassumption.
  all: cbn [Py.axis_ok]; try split; auto using to_float_opp.
Qed.

(** On integers the widened layer computes what the typed [update]
    computes. *)
Lemma py_update_simulation (surface : list Py.pcall -> Py.pcall -> option Py.exn)
      (m : gmap string Py.val) (w : world) :
  (forall l c, surface l c = None) ->
  Py.holds m (vars w) ->
  exists m' : gmap string Py.val,
    Py.update surface (Py.PWorld m (map Py.pcall_of (canvas w))) =
      Py.Ok tt (Py.PWorld m' (map Py.pcall_of (canvas (update w)))) /\
    Py.holds m' (vars (update w)).
Proof.
  destruct w as [[W H x y r vx vy c] log]. unfold Py.holds. cbn.
  intros Hq (HW & HH & Hx & Hy & Hr & Hvx & Hvy & Hc & Hcv).
  unfold_py. unfold_update. unfold orb.
  destruct (x + vx + r >? W) eqn:E1, (x + vx - r <? 0) eqn:E2,
           (y + vy + r >? H) eqn:E3, (y + vy - r <? 0) eqn:E4.
  all: repeat (first [ rewrite lookup_insert_eq
                     | rewrite lookup_insert_ne by discriminate
                     | rewrite Hx | rewrite Hy | rewrite Hvx | rewrite Hvy
                     | rewrite Hr | rewrite HW | rewrite HH | rewrite Hc | rewrite Hcv
                     | rewrite E1 | rewrite E2 | rewrite E3 | rewrite E4
                     | rewrite Hq ];
               cbv beta iota).
  all: eexists; (split; [rewrite !map_app; reflexivity|]).
  all: repeat split; lookups; assumption || reflexivity.
Qed.

Lemma py_frames_simulation (surface : list Py.pcall -> Py.pcall -> option Py.exn)
      (n : nat) :
  (forall l c, surface l c = None) ->
  forall (m : gmap string Py.val) (w : world),
    Py.holds m (vars w) ->
    exists m' : gmap string Py.val,
      Py.frames surface n (Py.PWorld m (map Py.pcall_of (canvas w))) =
        Py.Ok tt (Py.PWorld m' (map Py.pcall_of (canvas (frames n w)))) /\
      Py.holds m' (vars (frames n w)).
Proof.
  intros Hq. induction n as [|n IH]; intros m w Hm.
  - exists m. split; [reflexivity | exact Hm].
  - destruct (py_update_simulation surface m w Hq Hm) as (m1 & Hrun & Hm1).
    destruct (IH m1 (update w) Hm1) as (m2 & Hrest & Hm2).
    exists m2. split; [|exact Hm2].
    cbn [Py.frames frames]. unfold Py.bind. rewrite Hrun. exact Hrest.
Qed.

Lemma py_frames_run (surface : list Py.pcall -> Py.pcall -> option Py.exn) (n : nat) :
  (forall l c, surface l c = None) ->
  forall (m : gmap string Py.val) (log : list Py.pcall),
    Py.runnable m ->
    exists d : Py.pworld,
      Py.frames surface n (Py.PWorld m log) = Py.Ok tt d /\
      Py.runnable (Py.pvars d) /\
      length (Py.plog d) = (length log + 3 * n)%nat.
Proof.
  intros Hq. induction n as [|n IH]; intros m log Hm.
  - exists (Py.PWorld m log). split; [reflexivity|]. split; [exact Hm|]. cbn. lia.
  - destruct (py_update_runs surface m log Hq Hm) as (m1 & x & y & r & f & Hrun & Hm1).
    destruct (IH m1 (log ++ [Py.PClear; Py.PCircle x y r f; Py.PFlush]) Hm1)
      as (d & Hrest & Hd & Hlen).
    exists d. split; [|split; [exact Hd|]].
    + cbn [Py.frames]. unfold Py.bind. rewrite Hrun. exact Hrest.
    + rewrite Hlen, length_app. cbn. lia.
Qed.

(** A canvas that refuses the first call of a frame stops the frame with
    its own exception: [update] has no handler. *)
Lemma canvas_failure_propagates
      (surface : list Py.pcall -> Py.pcall -> option Py.exn)
      (m : gmap string Py.val) (w : world) (e : Py.exn) :
  Py.holds m (vars w) ->
  surface (map Py.pcall_of (canvas w)) Py.PClear = Some e ->
  Py.update surface (Py.PWorld m (map Py.pcall_of (canvas w))) = Py.Raise e.
Proof.
  destruct w as [[W H x y r vx vy c] log]. unfold Py.holds. cbn.
  intros (HW & HH & Hx & Hy & Hr & Hvx & Hvy & Hc & Hcv) Hfail.
  unfold_py.
  repeat (first [ rewrite lookup_insert_eq
                | rewrite lookup_insert_ne by discriminate
                | rewrite Hx | rewrite Hy | rewrite Hvx | rewrite Hvy
                | rewrite Hr | rewrite HW | rewrite HH | rewrite Hc | rewrite Hcv
                | rewrite Hfail
                | match goal with
                  | |- context [if ?b then _ else _] => destruct b
                  end ];
          cbv beta iota).
  all: reflexivity.
Qed.

(** C7, as amended.  With a canvas that accepts its calls, the update
    never raises on a ball whose position and velocity are integers of
    any size, or floats of any value, or a mixture in which the integers
    that meet a float fit in a double: any number of frames ends
    normally, leaves such a ball again and has sent the canvas three
    calls per frame.  On integers, the only numbers the module itself
    creates, the result is the one the typed [update] computes.  The
    update has no failure of its own beyond the conversion of an
    oversized integer, which the counterexample below exhibits. *)
Theorem update_never_raises
        (surface : list Py.pcall -> Py.pcall -> option Py.exn)
        (n : nat) (m : gmap string Py.val) (log : list Py.pcall) :
  (forall l c, surface l c = None) ->
  Py.runnable m ->
  exists d : Py.pworld,
    Py.frames surface n (Py.PWorld m log) = Py.Ok tt d /\
    Py.runnable (Py.pvars d) /\
    length (Py.plog d) = (length log + 3 * n)%nat /\
    (forall w : world,
       Py.holds m (vars w) -> log = map Py.pcall_of (canvas w) ->
       Py.holds (Py.pvars d) (vars (frames n w)) /\
       Py.plog d = map Py.pcall_of (canvas (frames n w))).
Proof.
  intros Hq Hm.
  destruct (py_frames_run surface n Hq m log Hm) as (d & Hrun & Hd & Hlen).
  exists d. split; [exact Hrun|]. split; [exact Hd|]. split; [exact Hlen|].
  intros w Hw ->.
  destruct (py_frames_simulation surface n Hq m w Hw) as (m' & Hrun' & Hm').
  rewrite Hrun in Hrun'. injection Hrun' as ->. split; [exact Hm' | reflexivity].
Qed.

Lemma update_never_raises_witness :
  let m := Py.dict (Py.VFloat Py.half) (Py.VInt 300) (Py.VInt 5) (Py.VFloat Py.half) in
  Py.runnable m /\
  exists d : Py.pworld,
    Py.frames Py.obliging 2 (Py.PWorld m []) = Py.Ok tt d /\
    Py.runnable (Py.pvars d) /\
    length (Py.plog d) = (length (@nil Py.pcall) + 3 * 2)%nat /\
    (forall w : world,
       Py.holds m (vars w) -> [] = map Py.pcall_of (canvas w) ->
       Py.holds (Py.pvars d) (vars (frames 2 w)) /\
       Py.plog d = map Py.pcall_of (canvas (frames 2 w))).
Proof.
  cbv zeta.
  assert (Hm : Py.runnable
            (Py.dict (Py.VFloat Py.half) (Py.VInt 300) (Py.VInt 5) (Py.VFloat Py.half))).
  { exists 800, 600, 20, (Py.VFloat Py.half), (Py.VInt 300), (Py.VInt 5),
           (Py.VFloat Py.half), (Py.VStr "red").
    repeat (split; [vm_compute; reflexivity|]).
    split; (split; vm_compute; eexists; reflexivity). }
  split; [exact Hm|].
  exact (update_never_raises Py.obliging 2 _ [] (fun _ _ => eq_refl) Hm).
Defined.

(** C7, as stated, fails: position x = 10^400, an integer, with velocity
    dx = 0.5, a float, is a ball state with finite position and velocity,
    and the first statement of [update] raises [OverflowError] on it. *)
Lemma update_raises_on_huge_int_with_float :
  let m := Py.dict (Py.VInt Py.googol4) (Py.VInt 300) (Py.VFloat Py.half) (Py.VInt 5) in
  Py.numeric m /\
  Py.update Py.obliging (Py.PWorld m []) = Py.Raise Py.OverflowError /\
  ~ (forall m' : gmap string Py.val,
       Py.numeric m' ->
       exists d : Py.pworld, Py.update Py.obliging (Py.PWorld m' []) = Py.Ok tt d).
Proof.
  cbv zeta.
  assert (Hm : Py.numeric
            (Py.dict (Py.VInt Py.googol4) (Py.VInt 300) (Py.VFloat Py.half) (Py.VInt 5))).
  { exists 800, 600, 20, (Py.VInt Py.googol4), (Py.VInt 300), (Py.VFloat Py.half),
           (Py.VInt 5), (Py.VStr "red").
    repeat (split; [vm_compute; reflexivity|]). repeat split. }
  assert (Hr : Py.update Py.obliging
                 (Py.PWorld (Py.dict (Py.VInt Py.googol4) (Py.VInt 300)
                                     (Py.VFloat Py.half) (Py.VInt 5)) []) =
               Py.Raise Py.OverflowError) by (vm_compute; reflexivity).
  split; [exact Hm|]. split; [exact Hr|].
  intros Hall. destruct (Hall _ Hm) as [d Hd]. rewrite Hr in Hd. discriminate Hd.
Qed.

Example float_ball_bounces :
  exists m' : gmap string Py.val,
    Py.update Py.obliging
      (Py.PWorld (Py.dict (Py.VFloat (binary_normalize prec emax 1571 (-1) false))
                          (Py.VInt 300) (Py.VFloat (binary_normalize prec emax 11 (-1) false))
                          (Py.VInt 5)) []) =
    Py.Ok tt (Py.PWorld m'
      [Py.PClear;
       Py.PCircle (Py.VFloat (binary_normalize prec emax 791 0 false)) (Py.VInt 305)
                  (Py.VInt 20) (Py.VStr "red");
       Py.PFlush]) /\
    m' !! "dx" = Some (Py.VFloat (binary_normalize prec emax (-11) (-1) false)).
Proof. eexists. split; vm_compute; reflexivity. Qed.

(** * Runs of any length, from any state *)

Lemma frames_add (m n : nat) (w : world) :
  frames (m + n) w = frames n (frames m w).
Proof.
  revert w; induction m as [|m IH]; intros w; [reflexivity|].
  cbn [Nat.add frames]. apply IH.
Qed.

Lemma vars_frames_steps (n : nat) (w : world) :
  vars (frames n w) = steps n (vars w).
Proof.
  revert w; induction n as [|n IH]; intros w; [reflexivity|].
  cbn [frames steps]. rewrite IH, vars_update. reflexivity.
Qed.

(** X1.  The canvas log after [n] frames is the log before them followed by
    one clear-circle-flush triple per frame, the k-th triple drawing the
    ball where the k-th frame left it.  Nothing already in the log is
    changed or removed. *)
Theorem frames_canvas_log (n : nat) (w : world) :
  canvas (frames n w) =
    canvas w ++ flat_map (fun k => frame_calls (vars (frames (S k) w))) (List.seq 0%nat n) /\
  length (canvas (frames n w)) = (length (canvas w) + 3 * n)%nat.
Proof.
  assert (Hlog : canvas (frames n w) =
    canvas w ++ flat_map (fun k => frame_calls (vars (frames (S k) w))) (List.seq 0%nat n)).
  { induction n as [|n IH]; [cbn; rewrite app_nil_r; reflexivity|].
    rewrite frames_S, update_canvas, IH, <- frames_S.
    rewrite List.seq_S, flat_map_app. cbn [flat_map Nat.add].
    rewrite app_nil_r, <- app_assoc. reflexivity. }
  split; [exact Hlog|].
  clear Hlog. induction n as [|n IH]; [cbn; lia|].
  rewrite frames_S, update_canvas, length_app, IH. cbn. lia.
Qed.

(** ** Staying near the canvas *)

Lemma safe_axis (limit r p v : Z) :
  safe limit r p v ->
  safe limit r (p + v)
    (if (p + v + r >? limit) || (p + v - r <? 0) then - v else v).
Proof.
  unfold safe. intros (Hb & Hhi & Hlo).
  destruct ((p + v + r >? limit) || (p + v - r <? 0))%bool eqn:E; bool_to_Z.
  - destruct E as [E|E]; bool_to_Z; lia.
  - lia.
Qed.

Lemma safe_frames (n : nat) (w : world) :
  let g := vars w in
  let g' := vars (frames n w) in
  safe (WIDTH g) (ball_radius g) (ball_x g) (dx g) ->
  safe (HEIGHT g) (ball_radius g) (ball_y g) (dy g) ->
  safe (WIDTH g) (ball_radius g) (ball_x g') (dx g') /\
  safe (HEIGHT g) (ball_radius g) (ball_y g') (dy g').
Proof.
  cbv zeta. induction n as [|n IH]; intros Hx Hy; [split; assumption|].
  destruct (IH Hx Hy) as [Hx' Hy'].
  destruct (frames_frame n w) as (EW & EH & Er & _).
  rewrite frames_S, update_ball_x, update_ball_y, update_dx, update_dy.
  cbv zeta. rewrite EW, EH, Er. split; apply safe_axis; assumption.
Qed.

Lemma frames_speed (n : nat) (w : world) :
  Z.abs (dx (vars (frames n w))) = Z.abs (dx (vars w)) /\
  Z.abs (dy (vars (frames n w))) = Z.abs (dy (vars w)).
Proof.
  induction n as [|n [IHx IHy]]; [split; reflexivity|].
  rewrite frames_S, update_dx, update_dy. cbv zeta.
  split; match goal with |- context [if ?b then _ else _] => destruct b end;
    rewrite ?Z.abs_opp; assumption.
Qed.

(** X2.  A ball that starts with its disc inside the canvas, whatever the
    canvas size, the radius and the velocity, never gets further past an
    edge than one step of its speed, and whenever a frame ends with the
    disc past an edge the velocity on that axis points back inside. *)
Theorem ball_stays_near_canvas (n : nat) (w : world) :
  let g := vars w in
  let g' := vars (frames n w) in
  within (WIDTH g) (ball_radius g) (ball_x g) ->
  within (HEIGHT g) (ball_radius g) (ball_y g) ->
  (ball_radius g - Z.abs (dx g) <= ball_x g' <= WIDTH g - ball_radius g + Z.abs (dx g) /\
   (ball_x g' + ball_radius g > WIDTH g -> dx g' < 0) /\
   (ball_x g' - ball_radius g < 0 -> dx g' > 0)) /\
  (ball_radius g - Z.abs (dy g) <= ball_y g' <= HEIGHT g - ball_radius g + Z.abs (dy g) /\
   (ball_y g' + ball_radius g > HEIGHT g -> dy g' < 0) /\
   (ball_y g' - ball_radius g < 0 -> dy g' > 0)).
Proof.
  intros g g' Hx Hy. unfold within in Hx, Hy.
  destruct (safe_frames n w) as [Sx Sy]; fold g; try (unfold safe; lia).
  destruct (frames_speed n w) as [Vx Vy].
  fold g in Sx, Sy, Vx, Vy. fold g' in Sx, Sy, Vx, Vy.
  unfold safe in Sx, Sy. rewrite Vx in Sx. rewrite Vy in Sy. split; assumption.
Qed.

Lemma ball_stays_near_canvas_witness :
  let w := placed 780 20 300 (-7) in
  let g := vars w in
  let g' := vars (frames 3 w) in
  (within (WIDTH g) (ball_radius g) (ball_x g) /\
   within (HEIGHT g) (ball_radius g) (ball_y g)) /\
  (ball_radius g - Z.abs (dx g) <= ball_x g' <= WIDTH g - ball_radius g + Z.abs (dx g) /\
   (ball_x g' + ball_radius g > WIDTH g -> dx g' < 0) /\
   (ball_x g' - ball_radius g < 0 -> dx g' > 0)) /\
  (ball_radius g - Z.abs (dy g) <= ball_y g' <= HEIGHT g - ball_radius g + Z.abs (dy g) /\
   (ball_y g' + ball_radius g > HEIGHT g -> dy g' < 0) /\
   (ball_y g' - ball_radius g < 0 -> dy g' > 0)).
Proof.
  cbv zeta.
  assert (Hx : within 800 20 780) by (unfold within; lia).
  assert (Hy : within 600 20 20) by (unfold within; lia).
  split; [split; [exact Hx | exact Hy]|].
  exact (ball_stays_near_canvas 3 (placed 780 20 300 (-7)) Hx Hy).
Defined.

(** X3.  When the canvas has room for the disc and one step beside it
    ([|dx| <= WIDTH - 2 * radius], and likewise in y), a ball that starts
    inside is never past an edge on the same axis for two frames in a
    row. *)
Theorem overhang_lasts_one_frame (n : nat) (w : world) :
  let g := vars w in
  let g1 := vars (frames n w) in
  let g2 := vars (frames (S n) w) in
  within (WIDTH g) (ball_radius g) (ball_x g) ->
  within (HEIGHT g) (ball_radius g) (ball_y g) ->
  Z.abs (dx g) <= WIDTH g - 2 * ball_radius g ->
  Z.abs (dy g) <= HEIGHT g - 2 * ball_radius g ->
  (past_wall (WIDTH g) (ball_radius g) (ball_x g1) ->
     within (WIDTH g) (ball_radius g) (ball_x g2)) /\
  (past_wall (HEIGHT g) (ball_radius g) (ball_y g1) ->
     within (HEIGHT g) (ball_radius g) (ball_y g2)).
Proof.
  intros g g1 g2 Hx Hy Rx Ry. unfold within in Hx, Hy.
  destruct (safe_frames n w) as [Sx Sy]; fold g; try (unfold safe; lia).
  destruct (frames_speed n w) as [Vx Vy].
  fold g in Sx, Sy, Vx, Vy. fold g1 in Sx, Sy, Vx, Vy.
  assert (Ex : ball_x g2 = ball_x g1 + dx g1)
    by (subst g1 g2; rewrite frames_S; apply update_ball_x).
  assert (Ey : ball_y g2 = ball_y g1 + dy g1)
    by (subst g1 g2; rewrite frames_S; apply update_ball_y).
  unfold safe in Sx, Sy. unfold past_wall, within. rewrite Ex, Ey.
  split; intros [P|P]; lia.
Qed.

Lemma overhang_lasts_one_frame_witness :
  let w := placed 780 20 300 (-7) in
  let g := vars w in
  let g1 := vars (frames 1 w) in
  let g2 := vars (frames 2 w) in
  (within (WIDTH g) (ball_radius g) (ball_x g) /\
   within (HEIGHT g) (ball_radius g) (ball_y g) /\
   Z.abs (dx g) <= WIDTH g - 2 * ball_radius g /\
   Z.abs (dy g) <= HEIGHT g - 2 * ball_radius g) /\
  (past_wall (WIDTH g) (ball_radius g) (ball_x g1) ->
     within (WIDTH g) (ball_radius g) (ball_x g2)) /\
  (past_wall (HEIGHT g) (ball_radius g) (ball_y g1) ->
     within (HEIGHT g) (ball_radius g) (ball_y g2)).
Proof.
  cbv zeta.
  assert (Hx : within 800 20 780) by (unfold within; lia).
  assert (Hy : within 600 20 20) by (unfold within; lia).
  assert (Rx : Z.abs 300 <= 800 - 2 * 20) by (vm_compute; discriminate).
  assert (Ry : Z.abs (-7) <= 600 - 2 * 20) by (vm_compute; discriminate).
  split; [repeat split; assumption || apply Hx || apply Hy|].
  exact (overhang_lasts_one_frame 1 (placed 780 20 300 (-7)) Hx Hy Rx Ry).
Defined.

(** ** Stuck at a wall *)

Lemma stuck_invariant (n : nat) (w : world) :
  let g := vars w in
  let g' := vars (frames n w) in
  past_wall (WIDTH g) (ball_radius g) (ball_x g) ->
  past_wall (WIDTH g) (ball_radius g) (ball_x g + dx g) ->
  (ball_x g' = ball_x g /\ dx g' = dx g) \/
  (ball_x g' = ball_x g + dx g /\ dx g' = - dx g).
Proof.
  cbv zeta. intros P0 P1. induction n as [|n IH]; [left; split; reflexivity|].
  destruct (frames_frame n w) as (EW & _ & Er & _).
  rewrite frames_S, update_ball_x, update_dx. cbv zeta. rewrite EW, Er.
  unfold past_wall in P0, P1.
  destruct IH as [[-> ->] | [-> ->]].
  - right. split; [reflexivity|].
    match goal with |- context [if ?b then _ else _] => destruct b eqn:E end;
      [reflexivity|]. bool_to_Z. lia.
  - left. replace (ball_x (vars w) + dx (vars w) + - dx (vars w))
      with (ball_x (vars w)) by lia.
    split; [reflexivity|].
    match goal with |- context [if ?b then _ else _] => destruct b eqn:E end;
      [lia|]. bool_to_Z. lia.
Qed.

(** X4.  A ball whose disc is past a wall on the x axis both where it is and
    where its next step takes it never comes back: every frame ends with
    the disc past a wall, the velocity reverses on every frame, and the
    position alternates between the same two points. *)
Theorem ball_stuck_past_wall (n : nat) (w : world) :
  let g := vars w in
  let g0 := vars (frames n w) in
  let g1 := vars (frames (S n) w) in
  let g2 := vars (frames (S (S n)) w) in
  past_wall (WIDTH g) (ball_radius g) (ball_x g) ->
  past_wall (WIDTH g) (ball_radius g) (ball_x g + dx g) ->
  past_wall (WIDTH g) (ball_radius g) (ball_x g0) /\
  dx g1 = - dx g0 /\
  ball_x g2 = ball_x g0 /\
  (ball_x g0 = ball_x g \/ ball_x g0 = ball_x g + dx g).
Proof.
  intros g g0 g1 g2 P0 P1.
  pose proof (stuck_invariant n w P0 P1) as H0.
  pose proof (stuck_invariant (S n) w P0 P1) as H1.
  pose proof (stuck_invariant (S (S n)) w P0 P1) as H2.
  fold g g0 in H0. fold g g1 in H1. fold g g2 in H2.
  assert (E1 : ball_x g1 = ball_x g0 + dx g0)
    by (subst g0 g1; rewrite frames_S; apply update_ball_x).
  assert (E2 : ball_x g2 = ball_x g1 + dx g1)
    by (subst g1 g2; rewrite (frames_S (S n)); apply update_ball_x).
  unfold past_wall in *. lia.
Qed.

Lemma ball_stuck_past_wall_witness :
  let w := placed 10 300 5 5 in
  let g := vars w in
  let g0 := vars (frames 4 w) in
  let g1 := vars (frames 5 w) in
  let g2 := vars (frames 6 w) in
  (past_wall (WIDTH g) (ball_radius g) (ball_x g) /\
   past_wall (WIDTH g) (ball_radius g) (ball_x g + dx g)) /\
  past_wall (WIDTH g) (ball_radius g) (ball_x g0) /\
  dx g1 = - dx g0 /\
  ball_x g2 = ball_x g0 /\
  (ball_x g0 = ball_x g \/ ball_x g0 = ball_x g + dx g).
Proof.
  cbv zeta.
  assert (P0 : past_wall 800 20 10) by (right; lia).
  assert (P1 : past_wall 800 20 (10 + 5)) by (right; lia).
  split; [split; [exact P0 | exact P1]|].
  exact (ball_stuck_past_wall 4 (placed 10 300 5 5) P0 P1).
Defined.

(** ** The shape of the motion *)

(** X5.  After [n] frames the ball is a whole number of steps from where it
    started, at most [n] of them either way, on each axis, moving at the
    speed it started with. *)
Theorem ball_moves_on_lattice (n : nat) (w : world) :
  let g := vars w in
  let g' := vars (frames n w) in
  (exists k : Z, Z.abs k <= Z.of_nat n /\ ball_x g' = ball_x g + k * dx g) /\
  (exists k : Z, Z.abs k <= Z.of_nat n /\ ball_y g' = ball_y g + k * dy g) /\
  (dx g' = dx g \/ dx g' = - dx g) /\
  (dy g' = dy g \/ dy g' = - dy g).
Proof.
  cbv zeta. induction n as [|n ((kx & Bx & Ex) & (ky & By & Ey) & Vx & Vy)].
  - repeat split; try (exists 0; cbn; split; lia); left; reflexivity.
  - rewrite frames_S, update_ball_x, update_ball_y, update_dx, update_dy.
    cbv zeta. rewrite Ex, Ey.
    split; [|split; [|split]].
    + destruct Vx as [-> | ->]; [exists (kx + 1) | exists (kx - 1)]; split; lia.
    + destruct Vy as [-> | ->]; [exists (ky + 1) | exists (ky - 1)]; split; lia.
    + match goal with |- context [if ?b then _ else _] => destruct b end; lia.
    + match goal with |- context [if ?b then _ else _] => destruct b end; lia.
Qed.

Lemma free_flight_axis (limit r p v : Z) (n k : nat) :
  within limit r (p + v) ->
  within limit r (p + Z.of_nat n * v) ->
  (1 <= k <= n)%nat ->
  within limit r (p + Z.of_nat k * v).
Proof.
  unfold within. intros H1 Hn Hk.
  assert (0 <= v \/ v <= 0) as [Hv|Hv] by lia; nia.
Qed.

(** X6.  Between walls the ball flies straight.  If the straight path puts the
    disc inside the canvas after one step and after [n] steps, on both
    axes, then after [n] frames the ball is [n] steps along that path with
    its velocity unchanged. *)
Theorem ball_flies_straight (n : nat) (w : world) :
  let g := vars w in
  let g' := vars (frames n w) in
  within (WIDTH g) (ball_radius g) (ball_x g + dx g) ->
  within (WIDTH g) (ball_radius g) (ball_x g + Z.of_nat n * dx g) ->
  within (HEIGHT g) (ball_radius g) (ball_y g + dy g) ->
  within (HEIGHT g) (ball_radius g) (ball_y g + Z.of_nat n * dy g) ->
  ball_x g' = ball_x g + Z.of_nat n * dx g /\
  ball_y g' = ball_y g + Z.of_nat n * dy g /\
  dx g' = dx g /\ dy g' = dy g.
Proof.
  intros g g' X1 Xn Y1 Yn. subst g'.
  assert (H : forall k : nat, (k <= n)%nat ->
            ball_x (vars (frames k w)) = ball_x g + Z.of_nat k * dx g /\
            ball_y (vars (frames k w)) = ball_y g + Z.of_nat k * dy g /\
            dx (vars (frames k w)) = dx g /\ dy (vars (frames k w)) = dy g).
  { induction k as [|k IH]; intros Hk.
    - cbn. fold g. repeat split; lia.
    - destruct (IH ltac:(lia)) as (Ex & Ey & Evx & Evy).
      destruct (frames_frame k w) as (EW & EH & Er & _).
      pose proof (free_flight_axis _ _ _ _ n (S k) X1 Xn ltac:(lia)) as Wx.
      pose proof (free_flight_axis _ _ _ _ n (S k) Y1 Yn ltac:(lia)) as Wy.
      unfold within in Wx, Wy.
      rewrite frames_S, update_ball_x, update_ball_y, update_dx, update_dy.
      cbv zeta. rewrite EW, EH, Er, Ex, Ey, Evx, Evy. fold g.
      replace (ball_x g + Z.of_nat k * dx g + dx g)
        with (ball_x g + Z.of_nat (S k) * dx g) by lia.
      replace (ball_y g + Z.of_nat k * dy g + dy g)
        with (ball_y g + Z.of_nat (S k) * dy g) by lia.
      repeat split;
        match goal with
        | |- context [if ?b then _ else _] => destruct b eqn:E
        | _ => idtac
        end; try reflexivity; exfalso; bool_to_Z; destruct E as [E|E]; bool_to_Z; lia. }
  apply H. lia.
Qed.

Lemma ball_flies_straight_witness :
  let w := initial in
  let g := vars w in
  let g' := vars (frames 50 w) in
  (within (WIDTH g) (ball_radius g) (ball_x g + dx g) /\
   within (WIDTH g) (ball_radius g) (ball_x g + Z.of_nat 50 * dx g) /\
   within (HEIGHT g) (ball_radius g) (ball_y g + dy g) /\
   within (HEIGHT g) (ball_radius g) (ball_y g + Z.of_nat 50 * dy g)) /\
  ball_x g' = ball_x g + Z.of_nat 50 * dx g /\
  ball_y g' = ball_y g + Z.of_nat 50 * dy g /\
  dx g' = dx g /\ dy g' = dy g.
Proof.
  cbv zeta.
  assert (X1 : within 800 20 (400 + 5)) by (unfold within; lia).
  assert (Xn : within 800 20 (400 + Z.of_nat 50 * 5)) by (unfold within; lia).
  assert (Y1 : within 600 20 (300 + 5)) by (unfold within; lia).
  assert (Yn : within 600 20 (300 + Z.of_nat 50 * 5)) by (unfold within; lia).
  split; [repeat split; first [apply X1 | apply Xn | apply Y1 | apply Yn]|].
  exact (ball_flies_straight 50 initial X1 Xn Y1 Yn).
Defined.

(** ** Symmetries *)

Ltac split_ifs :=
  repeat match goal with
         | |- context [if ?b then _ else _] => destruct b eqn:?; cbv beta iota
         end.

Ltac bool_cases :=
  bool_to_Z;
  repeat match goal with
         | H : _ \/ _ |- _ => destruct H
         end;
  bool_to_Z.

Lemma step_transpose (g : globals) : step (transpose g) = transpose (step g).
Proof.
  destruct g as [W H x y r vx vy c]. unfold step, transpose. unfold_update.
  split_ifs; first [reflexivity | congruence].
Qed.

Lemma step_mirror (g : globals) : step (mirror g) = mirror (step g).
Proof.
  destruct g as [W H x y r vx vy c]. unfold step, mirror. unfold_update.
  split_ifs; first [congruence | f_equal; lia | exfalso; bool_cases; lia].
Qed.

(** X7.  Exchanging the two axes (x with y, [WIDTH] with [HEIGHT], [dx] with
    [dy]) commutes with running the animation: the update treats the two
    axes alike over any number of frames. *)
Theorem frames_transpose (n : nat) (w : world) (log : list canvas_call) :
  vars (frames n (World (transpose (vars w)) log)) = transpose (vars (frames n w)).
Proof.
  rewrite !vars_frames_steps. cbn [vars].
  generalize (vars w) as g. induction n as [|n IH]; intros g; [reflexivity|].
  cbn [steps]. rewrite step_transpose. apply IH.
Qed.

(** X8.  Reflecting the scene left to right (x to [WIDTH - x], [dx] to [- dx])
    commutes with running the animation: the left and the right wall
    bounce the ball alike. *)
Theorem frames_mirror (n : nat) (w : world) (log : list canvas_call) :
  vars (frames n (World (mirror (vars w)) log)) = mirror (vars (frames n w)).
Proof.
  rewrite !vars_frames_steps. cbn [vars].
  generalize (vars w) as g. induction n as [|n IH]; intros g; [reflexivity|].
  cbn [steps]. rewrite step_mirror. apply IH.
Qed.

(** ** The axes do not interact *)

Lemma axis_x_frames (n : nat) :
  forall w1 w2 : world,
    WIDTH (vars w1) = WIDTH (vars w2) ->
    ball_radius (vars w1) = ball_radius (vars w2) ->
    ball_x (vars w1) = ball_x (vars w2) ->
    dx (vars w1) = dx (vars w2) ->
    ball_x (vars (frames n w1)) = ball_x (vars (frames n w2)) /\
    dx (vars (frames n w1)) = dx (vars (frames n w2)).
Proof.
  induction n as [|n IH]; intros w1 w2 EW Er Ex Ev; [split; assumption|].
  cbn [frames].
  destruct (update_frame w1) as (W1 & _ & R1 & _).
  destruct (update_frame w2) as (W2 & _ & R2 & _).
  apply IH.
  - congruence.
  - congruence.
  - rewrite !update_ball_x. congruence.
  - rewrite !update_dx. cbv zeta. rewrite EW, Er, Ex, Ev. reflexivity.
Qed.

Lemma axis_y_frames (n : nat) :
  forall w1 w2 : world,
    HEIGHT (vars w1) = HEIGHT (vars w2) ->
    ball_radius (vars w1) = ball_radius (vars w2) ->
    ball_y (vars w1) = ball_y (vars w2) ->
    dy (vars w1) = dy (vars w2) ->
    ball_y (vars (frames n w1)) = ball_y (vars (frames n w2)) /\
    dy (vars (frames n w1)) = dy (vars (frames n w2)).
Proof.
  induction n as [|n IH]; intros w1 w2 EH Er Ey Ev; [split; assumption|].
  cbn [frames].
  destruct (update_frame w1) as (_ & H1 & R1 & _).
  destruct (update_frame w2) as (_ & H2 & R2 & _).
  apply IH.
  - congruence.
  - congruence.
  - rewrite !update_ball_y. congruence.
  - rewrite !update_dy. cbv zeta. rewrite EH, Er, Ey, Ev. reflexivity.
Qed.

(** X9.  The horizontal motion over any number of frames depends only on
    [WIDTH], the radius, [ball_x] and [dx]: two states that agree on these
    agree on [ball_x] and [dx] ever after, whatever their vertical
    position and velocity, canvas height, colour and canvas contents.
    Likewise for the vertical motion. *)
Theorem axes_do_not_interact (n : nat) (w1 w2 : world) :
  (WIDTH (vars w1) = WIDTH (vars w2) /\
   ball_radius (vars w1) = ball_radius (vars w2) /\
   ball_x (vars w1) = ball_x (vars w2) /\
   dx (vars w1) = dx (vars w2) ->
   ball_x (vars (frames n w1)) = ball_x (vars (frames n w2)) /\
   dx (vars (frames n w1)) = dx (vars (frames n w2))) /\
  (HEIGHT (vars w1) = HEIGHT (vars w2) /\
   ball_radius (vars w1) = ball_radius (vars w2) /\
   ball_y (vars w1) = ball_y (vars w2) /\
   dy (vars w1) = dy (vars w2) ->
   ball_y (vars (frames n w1)) = ball_y (vars (frames n w2)) /\
   dy (vars (frames n w1)) = dy (vars (frames n w2))).
Proof.
  split; intros (E1 & E2 & E3 & E4).
  - apply axis_x_frames; assumption.
  - apply axis_y_frames; assumption.
Qed.

(** ** The program's own run repeats *)

Lemma steps_add (m n : nat) (g : globals) : steps (m + n) g = steps n (steps m g).
Proof.
  revert g; induction m as [|m IH]; intros g; [reflexivity|].
  cbn [Nat.add steps]. apply IH.
Qed.

(** X10.  The run from [initial] is periodic: the horizontal motion repeats
    every 308 frames, the vertical motion every 228 frames, and so the
    whole state of the ball every 17556 frames (their least common
    multiple). *)
Theorem run_is_periodic (n : nat) :
  let g := vars (frames n initial) in
  let gx := vars (frames (308 + n) initial) in
  let gy := vars (frames (228 + n) initial) in
  (ball_x gx = ball_x g /\ dx gx = dx g) /\
  (ball_y gy = ball_y g /\ dy gy = dy g) /\
  vars (frames (Nat.lcm 308 228 + n) initial) = g.
Proof.
  cbv zeta. split; [|split].
  - rewrite frames_add. apply axis_x_frames; rewrite vars_frames_steps;
      vm_compute; reflexivity.
  - rewrite frames_add. apply axis_y_frames; rewrite vars_frames_steps;
      vm_compute; reflexivity.
  - assert (E : steps (Nat.lcm 308 228) (vars initial) = vars initial)
      by (vm_compute; reflexivity).
    rewrite !vars_frames_steps, steps_add, E. reflexivity.
Qed.

(** ** What a frame writes, in the dictionary *)

Ltac dyn_step :=
  first
    [ rewrite lookup_insert_eq
    | rewrite lookup_insert_ne by discriminate
    | match goal with
      | H : ?m !! ?k = _ |- context [match ?m !! ?k with _ => _ end] => rewrite H
      end
    | match goal with
      | |- context [match ?m !! ?k with _ => _ end] =>
          destruct (m !! k) as [[?|?|]|] eqn:?
      | |- context [if ?b then _ else _] => destruct b
      end ];
  cbv beta iota;
  try match goal with
      | |- Dyn.Raise _ = _ -> _ => intros; discriminate
      end.

(** X11.  A frame that ends normally has rebound only the four names [update]
    declares global: every other name in the module's dictionary,
    whatever it is bound to, is bound as before.  It has sent the canvas
    exactly three calls, and the circle is drawn where [ball_x] and
    [ball_y] now are. *)
Theorem update_writes_only_globals (d d' : Dyn.dworld) :
  Dyn.update d = Dyn.Ok tt d' ->
  (forall k : string,
     k <> "ball_x" -> k <> "ball_y" -> k <> "dx" -> k <> "dy" ->
     Dyn.dvars d' !! k = Dyn.dvars d !! k) /\
  (exists x y r f : Dyn.val,
     Dyn.dcanvas d' = Dyn.dcanvas d ++ [Dyn.DClear; Dyn.DCircle x y r f; Dyn.DFlush] /\
     Dyn.dvars d' !! "ball_x" = Some x /\
     Dyn.dvars d' !! "ball_y" = Some y /\
     Dyn.dvars d !! "ball_radius" = Some r /\
     Dyn.dvars d !! "ball_color" = Some f).
Proof.
  destruct d as [m log]. unfold_dyn.
  repeat dyn_step.
  all: intros H; injection H as <-; cbn [Dyn.dvars Dyn.dcanvas].
  all: split;
    [ intros k K1 K2 K3 K4; rewrite ?lookup_insert_ne by congruence; reflexivity
    | do 4 eexists; rewrite <- !app_assoc;
      split; [reflexivity|]; lookups; repeat split; reflexivity ].
Qed.

Lemma update_writes_only_globals_witness :
  exists d' : Dyn.dworld,
    Dyn.update (Dyn.embed initial) = Dyn.Ok tt d' /\
    (forall k : string,
       k <> "ball_x" -> k <> "ball_y" -> k <> "dx" -> k <> "dy" ->
       Dyn.dvars d' !! k = Dyn.dvars (Dyn.embed initial) !! k) /\
    (exists x y r f : Dyn.val,
       Dyn.dcanvas d' =
         Dyn.dcanvas (Dyn.embed initial) ++ [Dyn.DClear; Dyn.DCircle x y r f; Dyn.DFlush] /\
       Dyn.dvars d' !! "ball_x" = Some x /\
       Dyn.dvars d' !! "ball_y" = Some y /\
       Dyn.dvars (Dyn.embed initial) !! "ball_radius" = Some r /\
       Dyn.dvars (Dyn.embed initial) !! "ball_color" = Some f).
Proof.
  eexists. 
  assert (H : Dyn.update (Dyn.embed initial) =
              Dyn.Ok tt (Dyn.DWorld
                (<["ball_y" := Dyn.VInt 305]>
                   (<["ball_x" := Dyn.VInt 405]> (Dyn.dict_of initial_globals)))
                [Dyn.DClear;
                 Dyn.DCircle (Dyn.VInt 405) (Dyn.VInt 305) (Dyn.VInt 20) (Dyn.VStr "red");
                 Dyn.DFlush]))
    by (vm_compute; reflexivity).
  split; [exact H|].
  exact (update_writes_only_globals _ _ H).
Defined.
